(** * The stub header [sys/syscall.h] under a C preprocessor

    The repository ships one C artifact,
    [scripts/cross-build-macos/darwin-headers/sys/syscall.h]: a header
    that holds a comment and an include guard.  What the file "does" is
    what a C preprocessor does with its text, so the development embeds
    the text of the file byte for byte and runs it through a model of
    the translation phases that matter for it:

    - phase 2, line splicing ([splice]);
    - phase 3, comments and preprocessing tokens ([scan]);
    - phase 4, directives, conditional groups, object-like macros and
      [#include] resolution against an include path ([pp_lines]).

    Directives and macro forms outside this fragment (function-like
    macros, the operators [#] and [##], [#if] expressions, [#pragma],
    ...) are answered by an error where they are reached, never by a
    silent success.  What is modelled is what preprocessing yields (the
    macros in force and the tokens handed on) and the errors that end
    it; warnings are not. *)

From Stdlib Require Import String Ascii List Bool Arith Lia.
From stdpp Require Import base option list gmap strings.
Import ListNotations.

Local Open Scope string_scope.
Local Open Scope list_scope.

(** ** The source text *)

Module Source.

(** Line feed, the only line terminator the file uses. *)
Definition nl : string := String (ascii_of_nat 10) EmptyString.

(** The nine physical lines of the header, in order, without their
    terminators. *)
Definition line1 : string := "/* Stub sys/syscall.h for macOS cross-compilation.".
Definition line2 : string := " *".
Definition line3 : string :=
  " * The real header is part of the macOS SDK (Xcode) and is not available when".
Definition line4 : string :=
  " * cross-compiling from Linux.  jemalloc unconditionally includes it, but only".
Definition line5 : string :=
  " * uses the Linux-specific SYS_* / __NR_* constants that do not exist on macOS".
Definition line6 : string := " * anyway, so an empty stub is sufficient. */".
Definition line7 : string := "#ifndef _SYS_SYSCALL_H_".
Definition line8 : string := "#define _SYS_SYSCALL_H_".
Definition line9 : string := "#endif".

(** The file: 390 bytes, eight line feeds, the last line unterminated. *)
Definition syscall_h : string :=
  line1 +:+ nl +:+ line2 +:+ nl +:+ line3 +:+ nl +:+ line4 +:+ nl +:+
  line5 +:+ nl +:+ line6 +:+ nl +:+ line7 +:+ nl +:+ line8 +:+ nl +:+ line9.

(** The name under which including sources ask for the file. *)
Definition header_name : string := "sys/syscall.h".

(** The include-guard macro. *)
Definition _SYS_SYSCALL_H_ : string := "_SYS_SYSCALL_H_".

End Source.

Export Source.

(** ** Results and diagnostics *)

(** What can be wrong with the line of a directive [d]. *)
Inductive directive_error : Type :=
  | MissingMacroName (d : string)
  | InvalidMacroName (d : string)
  | ExtraTokens (d : string)
  | BadInclude
  | UnsupportedForm (d : string).

Inductive pp_error : Type :=
  | FileNotFound (h : string)
  | NestedTooDeeply (h : string)
  | UnterminatedComment
  | UnterminatedLiteral
  | ConditionalWithoutIf (d : string)
  | ElseAfterElse (d : string)
  | UnterminatedConditional
  | Malformed (e : directive_error)
  | ErrorDirective
  | Unsupported (d : string).

Inductive result (A : Type) : Type :=
  | Ok (a : A)
  | Err (e : pp_error).

Arguments Ok {A} a.
Arguments Err {A} e.

#[global] Instance result_ret : MRet result := fun A a => Ok a.

#[global] Instance result_bind : MBind result := fun A B f r =>
  match r with
  | Ok a => f a
  | Err e => Err e
  end.

#[global] Instance result_fmap : FMap result := fun A B f r =>
  match r with
  | Ok a => Ok (f a)
  | Err e => Err e
  end.

(** ** Characters *)

Module Chars.

Definition code (c : ascii) : nat := nat_of_ascii c.

Definition is_newline (c : ascii) : bool := Nat.eqb (code c) 10.

(** Horizontal white space: tab, vertical tab, form feed, carriage
    return, space. *)
Definition is_white (c : ascii) : bool :=
  let n := code c in
  Nat.eqb n 9 || Nat.eqb n 11 || Nat.eqb n 12 || Nat.eqb n 13 || Nat.eqb n 32.

Definition is_digit (c : ascii) : bool :=
  let n := code c in Nat.leb 48 n && Nat.leb n 57.

Definition is_nondigit (c : ascii) : bool :=
  let n := code c in
  (Nat.leb 65 n && Nat.leb n 90) || (Nat.leb 97 n && Nat.leb n 122) || Nat.eqb n 95.

(** Characters of identifiers and preprocessing numbers. *)
Definition is_word (c : ascii) : bool := is_digit c || is_nondigit c.

Definition is_quote (c : ascii) : bool :=
  let n := code c in Nat.eqb n 34 || Nat.eqb n 39.

Definition is_backslash (c : ascii) : bool := Nat.eqb (code c) 92.
Definition is_slash (c : ascii) : bool := Nat.eqb (code c) 47.
Definition is_star (c : ascii) : bool := Nat.eqb (code c) 42.

End Chars.

Import Chars.

(** ** Physical lines *)

(** The text cut at every line feed: [k] line feeds give [k + 1] lines. *)
Fixpoint split_lines_from (cur : list ascii) (s : string) : list string :=
  match s with
  | EmptyString => [string_of_list_ascii (rev cur)]
  | String c s' =>
      if is_newline c
      then string_of_list_ascii (rev cur) :: split_lines_from [] s'
      else split_lines_from (c :: cur) s'
  end.

Definition split_lines (s : string) : list string := split_lines_from [] s.

Fixpoint join_lines (ls : list string) : string :=
  match ls with
  | [] => EmptyString
  | [l] => l
  | l :: ls' => l +:+ nl +:+ join_lines ls'
  end.

(** ** Phase 2: line splicing *)

(** A backslash immediately followed by a line feed is deleted. *)
Fixpoint splice (s : string) : string :=
  match s with
  | EmptyString => EmptyString
  | String c s' =>
      match s' with
      | String c' s'' =>
          if is_backslash c && is_newline c' then splice s''
          else String c (splice s')
      | EmptyString => String c EmptyString
      end
  end.

(** ** Phase 3: comments and preprocessing tokens *)

(** A preprocessing token is kept as its spelling. *)
Abbreviation token := string (only parsing).

(** What the scanner hands on: tokens, runs of white space (a comment is
    one white space), and ends of lines. *)
Inductive item : Type :=
  | ITok (t : token)
  | IWhite
  | INewline.

Inductive mode : Type :=
  | MCode
  | MBlock
  | MLine
  | MLit (q : ascii).

Definition word_of (acc : list ascii) : string := string_of_list_ascii (rev acc).

(** Close the word collected so far, if any. *)
Definition emit (acc : list ascii) (k : list item) : list item :=
  match acc with
  | [] => k
  | _ :: _ => ITok (word_of acc) :: k
  end.

(** [scan m acc s]: the items of [s], read in mode [m], with [acc] the
    characters (latest first) of the token under construction.  The end
    of the text ends the last line. *)
Fixpoint scan (m : mode) (acc : list ascii) (s : string) : result (list item) :=
  match s with
  | EmptyString =>
      match m with
      | MCode | MLine => Ok (emit acc [])
      | MBlock => Err UnterminatedComment
      | MLit _ => Err UnterminatedLiteral
      end
  | String c s' =>
      match m with
      | MCode =>
          if is_word c then scan MCode (c :: acc) s'
          else if is_newline c then
            (fun k => emit acc (INewline :: k)) <$> scan MCode [] s'
          else if is_white c then
            (fun k => emit acc (IWhite :: k)) <$> scan MCode [] s'
          else if is_quote c then
            emit acc <$> scan (MLit c) [c] s'
          else if is_slash c then
            match s' with
            | String c' s'' =>
                if is_star c' then
                  (fun k => emit acc (IWhite :: k)) <$> scan MBlock [] s''
                else if is_slash c' then
                  (fun k => emit acc (IWhite :: k)) <$> scan MLine [] s''
                else
                  (fun k => emit acc (ITok (String c EmptyString) :: k)) <$> scan MCode [] s'
            | EmptyString =>
                (fun k => emit acc (ITok (String c EmptyString) :: k)) <$> scan MCode [] s'
            end
          else
            (fun k => emit acc (ITok (String c EmptyString) :: k)) <$> scan MCode [] s'
      | MBlock =>
          match s' with
          | String c' s'' =>
              if is_star c && is_slash c' then scan MCode [] s''
              else scan MBlock [] s'
          | EmptyString => Err UnterminatedComment
          end
      | MLine =>
          if is_newline c then cons INewline <$> scan MCode [] s'
          else scan MLine [] s'
      | MLit q =>
          if Ascii.eqb c q then
            cons (ITok (word_of (c :: acc))) <$> scan MCode [] s'
          else if is_newline c then Err UnterminatedLiteral
          else if is_backslash c then
            match s' with
            | String c' s'' => scan (MLit q) (c' :: c :: acc) s''
            | EmptyString => Err UnterminatedLiteral
            end
          else scan (MLit q) (c :: acc) s'
      end
  end.

(** The items cut into logical lines at every [INewline]. *)
Fixpoint logical_lines (cur : list item) (its : list item) : list (list item) :=
  match its with
  | [] => [rev cur]
  | INewline :: its' => rev cur :: logical_lines [] its'
  | i :: its' => logical_lines (i :: cur) its'
  end.

Definition scan_text (s : string) : result (list (list item)) :=
  logical_lines [] <$> scan MCode [] (splice s).

(** ** Phase 4: directives *)

(** A logical line, once its directive (if any) is recognised. *)
Inductive line : Type :=
  | Text (ts : list token)
  | Define (x : string) (body : list token)
  | Undef (x : string)
  | Ifdef (x : string)
  | Ifndef (x : string)
  | IfExpr
  | Elif
  | Else
  | Endif
  | Include (h : string)
  | Other (d : string)
  | Bad (e : directive_error).

Fixpoint drop_white (l : list item) : list item :=
  match l with
  | IWhite :: l' => drop_white l'
  | _ => l
  end.

Fixpoint tokens_of (l : list item) : list token :=
  match l with
  | [] => []
  | ITok t :: l' => t :: tokens_of l'
  | _ :: l' => tokens_of l'
  end.

(** A word token is an identifier when it does not start with a digit. *)
Definition is_identifier (t : token) : bool :=
  match t with
  | String c _ => is_nondigit c
  | EmptyString => false
  end.

Definition macro_name (d : string) (x : token) : option directive_error :=
  if negb (is_identifier x) then Some (InvalidMacroName d)
  else if x =? "defined" then Some (InvalidMacroName d)
  else None.

(** [#undef], [#ifdef], [#ifndef]: exactly one macro name. *)
Definition one_name (d : string) (mk : string -> line) (args : list token) : line :=
  match args with
  | [] => Bad (MissingMacroName d)
  | x :: more =>
      match macro_name d x with
      | Some e => Bad e
      | None => match more with [] => mk x | _ :: _ => Bad (ExtraTokens d) end
      end
  end.

(** [#else], [#endif]: nothing after the directive name. *)
Definition no_args (d : string) (l : line) (args : list token) : line :=
  match args with
  | [] => l
  | _ :: _ => Bad (ExtraTokens d)
  end.

(** A replacement list without the operators [#] and [##], which the
    model does not cover. *)
Definition object_like (body : list token) (l : line) : line :=
  if existsb (String.eqb "#") body then Bad (UnsupportedForm "define") else l.

(** [#define]: a left parenthesis glued to the name opens a parameter
    list, which the model does not cover either. *)
Definition parse_define (args : list item) : line :=
  match drop_white args with
  | ITok x :: rest =>
      match macro_name "define" x with
      | Some e => Bad e
      | None =>
          match rest with
          | ITok t :: _ =>
              if t =? "(" then Bad (UnsupportedForm "define")
              else object_like (tokens_of rest) (Define x (tokens_of rest))
          | _ => object_like (tokens_of rest) (Define x (tokens_of rest))
          end
      end
  | _ => Bad (MissingMacroName "define")
  end.

(** The spelling between [<] and a final [>]. *)
Fixpoint angle_name (ts : list token) : option string :=
  match ts with
  | [] => None
  | t :: ts' =>
      if t =? ">" then match ts' with [] => Some EmptyString | _ :: _ => None end
      else String.append t <$> angle_name ts'
  end.

(** The spelling between the quotes of a string literal. *)
Definition unquote (t : token) : string :=
  match list_ascii_of_string t with
  | _ :: r => string_of_list_ascii (removelast r)
  | [] => EmptyString
  end.

Definition parse_include (args : list token) : line :=
  match args with
  | [] => Bad BadInclude
  | t :: ts =>
      if t =? "<" then
        match angle_name ts with
        | Some h => if h =? "" then Bad BadInclude else Include h
        | None => Bad BadInclude
        end
      else
        match t with
        | String c _ =>
            if Nat.eqb (code c) 34 then
              match ts with
              | [] => if unquote t =? "" then Bad BadInclude else Include (unquote t)
              | _ :: _ => Bad (ExtraTokens "include")
              end
            else Bad (UnsupportedForm "include")
        | EmptyString => Bad BadInclude
        end
  end.

Definition parse_directive (r : list item) : line :=
  match r with
  | ITok d :: args =>
      if d =? "define" then parse_define args
      else if d =? "undef" then one_name d Undef (tokens_of args)
      else if d =? "ifdef" then one_name d Ifdef (tokens_of args)
      else if d =? "ifndef" then one_name d Ifndef (tokens_of args)
      else if d =? "if" then IfExpr
      else if d =? "elif" then Elif
      else if d =? "else" then no_args d Else (tokens_of args)
      else if d =? "endif" then no_args d Endif (tokens_of args)
      else if d =? "include" then parse_include (tokens_of args)
      else Other d
  | _ => Text []
  end.

(** A line whose first token is [#] is a directive; a lone [#] is the
    null directive. *)
Definition parse_line (l : list item) : line :=
  match drop_white l with
  | ITok t :: r => if t =? "#" then parse_directive (drop_white r) else Text (tokens_of l)
  | _ => Text (tokens_of l)
  end.

Definition parse (text : string) : result (list line) :=
  map parse_line <$> scan_text text.

(** ** Macros *)

(** [expand n m t]: the replacement of [t] under the macros [m].  While
    the replacement list of a macro is rescanned the macro itself is not
    available, so each nested level works on a smaller table; [n] bounds
    the nesting and [size m] is always enough. *)
Fixpoint expand (n : nat) (m : gmap string (list token)) (t : token) : list token :=
  match n with
  | 0 => [t]
  | S n' =>
      match m !! t with
      | Some body => flat_map (expand n' (delete t m)) body
      | None => [t]
      end
  end.

Definition expand_token (m : gmap string (list token)) (t : token) : list token :=
  expand (size m) m t.

Definition expand_tokens (m : gmap string (list token)) (ts : list token) : list token :=
  flat_map (expand_token m) ts.

Definition defined (m : gmap string (list token)) (x : string) : bool :=
  match m !! x with
  | Some _ => true
  | None => false
  end.

(** ** The preprocessor *)

(** What a translation unit has accumulated so far: the macros in force
    and the tokens handed to the compiler proper. *)
Record pp_state : Type := PPState {
  macros : gmap string (list token);
  out : list token
}.

Definition init_state : pp_state := {| macros := ∅; out := [] |}.

(** State of one conditional group: its lines are being taken, it waits
    for an [#else], or nothing more of it will be taken. *)
Inductive group : Type := Taking | Waiting | Finished.

Record frame : Type := Frame { grp : group; seen_else : bool }.

Definition active (cs : list frame) : bool :=
  match cs with
  | [] => true
  | f :: _ => match grp f with Taking => true | _ => false end
  end.

Definition open_group (test : bool) (cs : list frame) : list frame :=
  {| grp := if active cs then (if test then Taking else Waiting) else Finished;
     seen_else := false |} :: cs.

(** [#define]: the macro gets the replacement list; an earlier
    definition of the name is replaced (compilers warn when it differs,
    and go on with the new one). *)
Definition define (x : string) (body : list token) (st : pp_state) : result pp_state :=
  Ok {| macros := <[x := body]> (macros st); out := out st |}.

Definition undef (x : string) (st : pp_state) : pp_state :=
  {| macros := delete x (macros st); out := out st |}.

Definition emit_text (ts : list token) (st : pp_state) : pp_state :=
  {| macros := macros st; out := out st ++ expand_tokens (macros st) ts |}.

(** A line of a group that is being taken; [incl] says how a header is
    brought in. *)
Definition exec (incl : string -> pp_state -> result pp_state)
    (l : line) (st : pp_state) : result pp_state :=
  match l with
  | Text ts => Ok (emit_text ts st)
  | Define x body => define x body st
  | Undef x => Ok (undef x st)
  | Include h => incl h st
  | Other d => if d =? "error" then Err ErrorDirective else Err (Unsupported d)
  | Bad e => Err (Malformed e)
  | Ifdef _ | Ifndef _ | IfExpr | Elif | Else | Endif => Ok st
  end.

(** One line: conditional directives move the stack of groups, every
    other line runs only when the innermost group is being taken. *)
Definition step (incl : string -> pp_state -> result pp_state)
    (l : line) (cs : list frame) (st : pp_state) : result (list frame * pp_state) :=
  match l with
  | Ifdef x => Ok (open_group (defined (macros st) x) cs, st)
  | Ifndef x => Ok (open_group (negb (defined (macros st) x)) cs, st)
  | IfExpr =>
      if active cs then Err (Unsupported "if")
      else Ok (open_group false cs, st)
  | Elif =>
      match cs with
      | [] => Err (ConditionalWithoutIf "elif")
      | f :: cs' =>
          if seen_else f then Err (ElseAfterElse "elif")
          else match grp f with
               | Waiting => Err (Unsupported "elif")
               | _ => Ok ({| grp := Finished; seen_else := false |} :: cs', st)
               end
      end
  | Else =>
      match cs with
      | [] => Err (ConditionalWithoutIf "else")
      | f :: cs' =>
          if seen_else f then Err (ElseAfterElse "else")
          else Ok ({| grp := match grp f with Waiting => Taking | _ => Finished end;
                      seen_else := true |} :: cs', st)
      end
  | Endif =>
      match cs with
      | [] => Err (ConditionalWithoutIf "endif")
      | _ :: cs' => Ok (cs', st)
      end
  | _ =>
      if active cs then st' ← exec incl l st; Ok (cs, st')
      else Ok (cs, st)
  end.

(** [pp_lines depth inc ls cs st] runs the lines [ls] of one file.
    [inc] is the include path (header name to text) and [depth] the
    number of further nested inclusions allowed.  Conditional groups
    must be closed in the file that opens them. *)
Fixpoint pp_lines (depth : nat) (inc : gmap string string)
    : list line -> list frame -> pp_state -> result pp_state :=
  fix go (ls : list line) (cs : list frame) (st : pp_state) : result pp_state :=
    match ls with
    | [] =>
        match cs with
        | [] => Ok st
        | _ :: _ => Err UnterminatedConditional
        end
    | l :: ls' =>
        r ← step (fun h st0 =>
                    match depth with
                    | 0 => Err (NestedTooDeeply h)
                    | S d =>
                        match inc !! h with
                        | None => Err (FileNotFound h)
                        | Some text => lsh ← parse text; pp_lines d inc lsh [] st0
                        end
                    end) l cs st;
        go ls' r.1 r.2
    end.

(** Preprocessing the text of one file from the state [st]. *)
Definition pp_text (depth : nat) (inc : gmap string string)
    (text : string) (st : pp_state) : result pp_state :=
  ls ← parse text; pp_lines depth inc ls [] st.

(** How [#include] brings in the header [h]. *)
Definition include (depth : nat) (inc : gmap string string)
    (h : string) (st : pp_state) : result pp_state :=
  match depth with
  | 0 => Err (NestedTooDeeply h)
  | S d =>
      match inc !! h with
      | None => Err (FileNotFound h)
      | Some text => pp_text d inc text st
      end
  end.

(** The scanner fails on an open comment or an open literal only. *)
Definition lexical (e : pp_error) : Prop :=
  e = UnterminatedComment \/ e = UnterminatedLiteral.

(** ** Translation units around the header *)

(** What the header does to a state: it defines the guard when the guard
    is not defined, and nothing else. *)
Definition guard_defined (st : pp_state) : pp_state :=
  match macros st !! _SYS_SYSCALL_H_ with
  | Some _ => st
  | None => {| macros := <[_SYS_SYSCALL_H_ := []]> (macros st); out := out st |}
  end.

(** The header included [n] times in a row. *)
Definition includes (n : nat) : list line := replicate n (Include header_name).

(** An include path that holds the header and nothing else. *)
Definition stub_path : gmap string string := {[header_name := syscall_h]}.

(** A unit that includes the header and then asks whether the guard is
    defined, and the same unit without its [#include] line. *)
Definition probing_unit : string :=
  "#include <sys/syscall.h>" +:+ nl +:+
  "#ifdef _SYS_SYSCALL_H_" +:+ nl +:+
  "int stub_seen;" +:+ nl +:+
  "#endif".

Definition probing_unit_without : string :=
  "#ifdef _SYS_SYSCALL_H_" +:+ nl +:+
  "int stub_seen;" +:+ nl +:+
  "#endif".

(** The macro names a file defines, in order. *)
Fixpoint defined_names (ls : list line) : list string :=
  match ls with
  | [] => []
  | Define x _ :: ls' => x :: defined_names ls'
  | _ :: ls' => defined_names ls'
  end.

(** The names of the syscall-number constants the comment of the header
    speaks of. *)
Definition syscall_constant (x : string) : bool :=
  String.prefix "SYS_" x || String.prefix "__NR_" x.

(** ** Compiling a unit *)

(** What a compilation reports. *)
Inductive diagnostic : Type :=
  | MissingHeader (h : string)
  | UndeclaredIdentifier (x : string)
  | PreprocessingError (e : pp_error).

(** A compilation: the unit is preprocessed and, when that succeeds, its
    tokens go to the compiler proper, of which only one thing is
    modelled: [undeclared ts], the identifiers of [ts] it finds
    undeclared. *)
Definition compile (undeclared : list token -> list string)
    (depth : nat) (inc : gmap string string) (unit : list line) (st : pp_state)
    : list diagnostic :=
  match pp_lines depth inc unit [] st with
  | Ok st' => UndeclaredIdentifier <$> undeclared (out st')
  | Err (FileNotFound h) => [MissingHeader h]
  | Err e => [PreprocessingError e]
  end.

(** A diagnostic that is about this header: the header is missing, or an
    identifier the real header provides ([provided]) is undeclared. *)
Definition about_header (provided : string -> bool) (d : diagnostic) : bool :=
  match d with
  | MissingHeader h => h =? header_name
  | UndeclaredIdentifier x => provided x
  | PreprocessingError _ => false
  end.

(** ** Basic facts about the model *)

Section Unfolding.

Context (depth : nat) (inc : gmap string string).

Lemma pp_lines_nil (st : pp_state) : pp_lines depth inc [] [] st = Ok st.
Proof. by destruct depth. Qed.

Lemma pp_lines_open (f : frame) (cs : list frame) (st : pp_state) :
  pp_lines depth inc [] (f :: cs) st = Err UnterminatedConditional.
Proof. by destruct depth. Qed.

Lemma pp_lines_cons (l : line) (ls : list line) (cs : list frame) (st : pp_state) :
  pp_lines depth inc (l :: ls) cs st =
  r ← step (include depth inc) l cs st; pp_lines depth inc ls r.1 r.2.
Proof. by destruct depth. Qed.

End Unfolding.

(** The header, scanned and parsed: the comment leaves one empty line,
    the three directives follow. *)
Lemma parse_syscall_h :
  parse syscall_h = Ok [Text []; Ifndef _SYS_SYSCALL_H_; Define _SYS_SYSCALL_H_ []; Endif].
Proof. vm_compute. reflexivity. Qed.

(** One line of a run, with the conditional stack and the state made
    explicit. *)
Ltac run_line :=
  rewrite pp_lines_cons;
  unfold step, exec, open_group, emit_text, define, undef, defined, active;
  cbn [macros out mbind result_bind fst snd grp seen_else negb].

Lemma pp_syscall_h (depth : nat) (inc : gmap string string) (st : pp_state) :
  pp_text depth inc syscall_h st = Ok (guard_defined st).
Proof.
  unfold pp_text. rewrite parse_syscall_h. cbn [mbind result_bind].
  destruct st as [m o]. unfold guard_defined. cbn [macros out].
  run_line. cbn [expand_tokens flat_map]. rewrite app_nil_r.
  run_line.
  destruct (m !! _SYS_SYSCALL_H_) as [body|] eqn:Hg; cbn [negb mbind result_bind fst snd].
  - do 2 run_line. apply pp_lines_nil.
  - do 2 run_line. apply pp_lines_nil.
Qed.

(** ** The header in a state *)

Lemma guard_defined_out (st : pp_state) : out (guard_defined st) = out st.
Proof. unfold guard_defined. by destruct (macros st !! _SYS_SYSCALL_H_). Qed.

Lemma guard_defined_other (st : pp_state) (x : string) :
  x ≠ _SYS_SYSCALL_H_ -> macros (guard_defined st) !! x = macros st !! x.
Proof.
  intros Hx. unfold guard_defined.
  destruct (macros st !! _SYS_SYSCALL_H_); [done|]. cbn. by rewrite lookup_insert_ne.
Qed.

Lemma guard_defined_fresh (st : pp_state) :
  macros st !! _SYS_SYSCALL_H_ = None ->
  guard_defined st = {| macros := <[_SYS_SYSCALL_H_ := []]> (macros st); out := out st |}.
Proof. intros Hg. unfold guard_defined. by rewrite Hg. Qed.

Lemma guard_defined_noop (st : pp_state) :
  is_Some (macros st !! _SYS_SYSCALL_H_) -> guard_defined st = st.
Proof. intros [body Hg]. unfold guard_defined. by rewrite Hg. Qed.

Lemma guard_defined_is_Some (st : pp_state) :
  is_Some (macros (guard_defined st) !! _SYS_SYSCALL_H_).
Proof.
  unfold guard_defined. destruct (macros st !! _SYS_SYSCALL_H_) eqn:Hg.
  - rewrite Hg. by eexists.
  - cbn. rewrite lookup_insert_eq. by eexists.
Qed.

Lemma guard_defined_idem (st : pp_state) :
  guard_defined (guard_defined st) = guard_defined st.
Proof. apply guard_defined_noop, guard_defined_is_Some. Qed.

(** The guard after the header: its earlier definition, or the empty
    replacement list. *)
Lemma guard_defined_guard (st : pp_state) :
  macros (guard_defined st) !! _SYS_SYSCALL_H_ =
    Some (match macros st !! _SYS_SYSCALL_H_ with Some body => body | None => [] end).
Proof.
  unfold guard_defined. destruct (macros st !! _SYS_SYSCALL_H_) as [body|] eqn:Hg.
  - done.
  - cbn. apply lookup_insert_eq.
Qed.

(** Where the table changed, the guard went from undefined to defined
    with an empty replacement list. *)
Lemma guard_defined_change (st : pp_state) (x : string) :
  macros (guard_defined st) !! x ≠ macros st !! x ->
  x = _SYS_SYSCALL_H_ /\ macros st !! x = None /\ macros (guard_defined st) !! x = Some [].
Proof.
  intros Hne. destruct (decide (x = _SYS_SYSCALL_H_)) as [->|Hx].
  - destruct (macros st !! _SYS_SYSCALL_H_) as [body|] eqn:Hg.
    + rewrite guard_defined_noop in Hne by (by eexists). by rewrite Hg in Hne.
    + rewrite guard_defined_fresh by done. cbn. by rewrite lookup_insert_eq.
  - by rewrite guard_defined_other in Hne.
Qed.

(** An [#include] of the header, when the include path has it. *)
Lemma include_syscall_h (d : nat) (inc : gmap string string) (st : pp_state) :
  inc !! header_name = Some syscall_h ->
  include (S d) inc header_name st = Ok (guard_defined st).
Proof. intros Hinc. cbn [include]. rewrite Hinc. apply pp_syscall_h. Qed.

Lemma pp_includes (d : nat) (inc : gmap string string) (n : nat) (st : pp_state) :
  inc !! header_name = Some syscall_h ->
  pp_lines (S d) inc (includes (S n)) [] st = Ok (guard_defined st).
Proof.
  intros Hinc. revert st. induction n as [|n IH]; intros st.
  - unfold includes. cbn [replicate]. run_line.
    rewrite include_syscall_h by done. cbn [mbind result_bind fst snd].
    apply pp_lines_nil.
  - change (includes (S (S n))) with (Include header_name :: includes (S n)).
    run_line. rewrite include_syscall_h by done. cbn [mbind result_bind fst snd].
    rewrite IH. by rewrite guard_defined_idem.
Qed.

Lemma syscall_constant_not_guard (x : string) :
  syscall_constant x = true -> x ≠ _SYS_SYSCALL_H_.
Proof. intros Hx ->. vm_compute in Hx. discriminate. Qed.

Lemma expand_undefined (n : nat) (m : gmap string (list token)) (t : token) :
  m !! t = None -> expand n m t = [t].
Proof. intros Ht. destruct n; cbn; [done|]. by rewrite Ht. Qed.

(** ** Including the header *)

(** C1. Preprocessing the header succeeds and hands no token to the
    compiler proper: nothing is declared.  No macro other than
    [_SYS_SYSCALL_H_] is touched, and the guard itself, when the header
    is seen for the first time (the guard is not defined yet), becomes
    defined with an empty replacement list; a guard that is already
    defined keeps its definition. *)
Theorem first_inclusion_defines_only_the_guard
    (depth : nat) (inc : gmap string string) (st : pp_state) :
  exists st',
    pp_text depth inc syscall_h st = Ok st' /\
    out st' = out st /\
    (forall x, x ≠ _SYS_SYSCALL_H_ -> macros st' !! x = macros st !! x) /\
    macros st' !! _SYS_SYSCALL_H_ =
      Some (match macros st !! _SYS_SYSCALL_H_ with Some body => body | None => [] end) /\
    macros st' =
      match macros st !! _SYS_SYSCALL_H_ with
      | Some _ => macros st
      | None => <[_SYS_SYSCALL_H_ := []]> (macros st)
      end.
Proof.
  exists (guard_defined st). rewrite pp_syscall_h.
  split; [done|]. split; [apply guard_defined_out|].
  split; [intros x; apply guard_defined_other|].
  unfold guard_defined. destruct (macros st !! _SYS_SYSCALL_H_) as [body|] eqn:Hg; cbn.
  - by rewrite Hg.
  - by rewrite lookup_insert_eq.
Qed.

(** C2. Including the header [n >= 1] times in a row gives the same
    result, macro table and token stream alike, as including it once:
    every inclusion after the first finds the guard defined and skips
    the body. *)
Theorem repeated_inclusion_is_idempotent
    (d : nat) (inc : gmap string string) (st : pp_state) (n : nat) :
  inc !! header_name = Some syscall_h ->
  1 <= n ->
  exists st',
    pp_lines (S d) inc (includes 1) [] st = Ok st' /\
    pp_lines (S d) inc (includes n) [] st = Ok st'.
Proof.
  intros Hinc Hn. exists (guard_defined st).
  destruct n as [|n]; [lia|]. by rewrite !pp_includes.
Qed.

Lemma repeated_inclusion_is_idempotent_witness :
  ({[header_name := syscall_h]} : gmap string string) !! header_name = Some syscall_h /\
  1 <= 3 /\
  exists st',
    pp_lines 1 {[header_name := syscall_h]} (includes 1) [] init_state = Ok st' /\
    pp_lines 1 {[header_name := syscall_h]} (includes 3) [] init_state = Ok st'.
Proof.
  split; [reflexivity|]. split; [lia|].
  apply (repeated_inclusion_is_idempotent 0 {[header_name := syscall_h]} init_state 3);
    [reflexivity | lia].
Defined.

(** C3, as stated, fails: from the empty macro table the header leaves a
    table in which [_SYS_SYSCALL_H_] is defined. *)
Lemma inclusion_changes_the_macro_state :
  exists st',
    pp_text 0 ∅ syscall_h init_state = Ok st' /\
    macros init_state !! _SYS_SYSCALL_H_ = None /\
    macros st' !! _SYS_SYSCALL_H_ = Some [] /\
    macros st' ≠ macros init_state.
Proof.
  exists (guard_defined init_state). split; [apply pp_syscall_h|].
  split; [reflexivity|]. split; [reflexivity|].
  intros Heq. apply (f_equal (fun m => m !! _SYS_SYSCALL_H_)) in Heq.
  vm_compute in Heq. discriminate.
Qed.

(** C3, amended. Preprocessing the header leaves the macro table as it
    was except at the guard: every other name keeps its definition or
    its absence, no macro is undefined or redefined, and
    [_SYS_SYSCALL_H_], when it was not defined before, becomes defined
    with an empty replacement list. *)
Theorem inclusion_changes_only_the_guard
    (depth : nat) (inc : gmap string string) (st : pp_state) :
  exists st',
    pp_text depth inc syscall_h st = Ok st' /\
    out st' = out st /\
    (forall x, x ≠ _SYS_SYSCALL_H_ -> macros st' !! x = macros st !! x) /\
    (forall x, is_Some (macros st !! x) -> macros st' !! x = macros st !! x) /\
    macros st' !! _SYS_SYSCALL_H_ =
      Some (match macros st !! _SYS_SYSCALL_H_ with Some body => body | None => [] end).
Proof.
  exists (guard_defined st). rewrite pp_syscall_h.
  split; [done|]. split; [apply guard_defined_out|].
  split; [intros x; apply guard_defined_other|].
  split.
  - intros x Hx. destruct (decide (x = _SYS_SYSCALL_H_)) as [->|Hne].
    + by rewrite guard_defined_noop.
    + by apply guard_defined_other.
  - apply guard_defined_guard.
Qed.

(** C10. When [_SYS_SYSCALL_H_] is already defined, whatever its
    replacement list, preprocessing the header changes nothing: the
    state that comes out is the state that went in. *)
Theorem guard_already_defined_is_noop
    (depth : nat) (inc : gmap string string) (st : pp_state) :
  is_Some (macros st !! _SYS_SYSCALL_H_) ->
  pp_text depth inc syscall_h st = Ok st.
Proof. intros Hg. rewrite pp_syscall_h. by rewrite guard_defined_noop. Qed.

Lemma guard_already_defined_is_noop_witness :
  is_Some (macros {| macros := {[_SYS_SYSCALL_H_ := ["1"]]}; out := ["int"] |} !! _SYS_SYSCALL_H_) /\
  pp_text 0 ∅ syscall_h {| macros := {[_SYS_SYSCALL_H_ := ["1"]]}; out := ["int"] |} =
    Ok {| macros := {[_SYS_SYSCALL_H_ := ["1"]]}; out := ["int"] |}.
Proof.
  split; [exists ["1"]; reflexivity|].
  apply (guard_already_defined_is_noop 0 ∅
           {| macros := {[_SYS_SYSCALL_H_ := ["1"]]}; out := ["int"] |}).
  exists ["1"]. reflexivity.
Defined.

(** ** The text of the header *)

(** C5. The file is nine lines: a comment block that runs from the first
    line to the end of the sixth (cut anywhere earlier it is an
    unterminated comment; whole, it scans to a single white space), then
    the three directives [#ifndef], [#define], [#endif] of the include
    guard, and nothing else. *)
Theorem nine_lines_of_include_guard :
  split_lines syscall_h =
    [line1; line2; line3; line4; line5; line6; line7; line8; line9] /\
  length (split_lines syscall_h) = 9 /\
  scan_text (join_lines (take 5 (split_lines syscall_h))) = Err UnterminatedComment /\
  scan_text (join_lines (take 6 (split_lines syscall_h))) = Ok [[IWhite]] /\
  parse (join_lines (drop 6 (split_lines syscall_h))) =
    Ok [Ifndef _SYS_SYSCALL_H_; Define _SYS_SYSCALL_H_ []; Endif] /\
  parse syscall_h = Ok [Text []; Ifndef _SYS_SYSCALL_H_; Define _SYS_SYSCALL_H_ []; Endif].
Proof. repeat split; vm_compute; reflexivity. Qed.

(** C6. The header has one [#define], of [_SYS_SYSCALL_H_], and it is
    that macro it defines: after the header the guard is defined, with
    an empty replacement list when it was undefined before and with the
    definition it had otherwise, which the header never replaces.
    Wherever the macro table differs after the header from what it was
    before, the name is [_SYS_SYSCALL_H_]. *)
Theorem guard_is_the_only_macro_defined
    (depth : nat) (inc : gmap string string) (st : pp_state) :
  (exists ls, parse syscall_h = Ok ls /\ defined_names ls = [_SYS_SYSCALL_H_]) /\
  exists st',
    pp_text depth inc syscall_h st = Ok st' /\
    macros st' !! _SYS_SYSCALL_H_ =
      Some (match macros st !! _SYS_SYSCALL_H_ with Some body => body | None => [] end) /\
    forall x, macros st' !! x ≠ macros st !! x ->
      x = _SYS_SYSCALL_H_ /\ macros st !! x = None /\ macros st' !! x = Some [].
Proof.
  split.
  - eexists. split; [apply parse_syscall_h|reflexivity].
  - exists (guard_defined st). split; [apply pp_syscall_h|].
    split; [apply guard_defined_guard|apply guard_defined_change].
Qed.



(** C9. No macro whose name starts with [SYS_] or [__NR_] is defined by
    the header: none of its [#define]s has such a name, such a name has
    the same definition, or none, after the header as before, and one
    that was undefined before still goes to the compiler proper as the
    bare identifier. *)
Theorem no_syscall_constant_is_defined
    (depth : nat) (inc : gmap string string) (st : pp_state) (x : string) :
  syscall_constant x = true ->
  (exists ls, parse syscall_h = Ok ls /\
     Forall (fun y => syscall_constant y = false) (defined_names ls)) /\
  exists st',
    pp_text depth inc syscall_h st = Ok st' /\
    macros st' !! x = macros st !! x /\
    (macros st !! x = None ->
       expand_tokens (macros st') [x] = [x] /\
       out (emit_text [x] st') = out (emit_text [x] st)).
Proof.
  intros Hx. split.
  - eexists. split; [apply parse_syscall_h|]. cbn. by repeat constructor.
  - exists (guard_defined st). split; [apply pp_syscall_h|].
    pose proof (guard_defined_other st x (syscall_constant_not_guard x Hx)) as Hsame.
    split; [done|]. intros Hnone.
    assert (Hexp : forall m : gmap string (list token),
               m !! x = None -> expand_tokens m [x] = [x]).
    { intros m Hm. unfold expand_tokens, expand_token. cbn [flat_map].
      rewrite expand_undefined by done. done. }
    split.
    + apply Hexp. by rewrite Hsame.
    + unfold emit_text. cbn [out]. rewrite guard_defined_out.
      rewrite !Hexp; [done..|]. by rewrite Hsame.
Qed.

Lemma no_syscall_constant_is_defined_witness :
  syscall_constant "SYS_getrandom" = true /\
  (exists ls, parse syscall_h = Ok ls /\
     Forall (fun y => syscall_constant y = false) (defined_names ls)) /\
  exists st',
    pp_text 0 ∅ syscall_h init_state = Ok st' /\
    macros st' !! "SYS_getrandom" = macros init_state !! "SYS_getrandom" /\
    (macros init_state !! "SYS_getrandom" = None ->
       expand_tokens (macros st') ["SYS_getrandom"] = ["SYS_getrandom"] /\
       out (emit_text ["SYS_getrandom"] st') =
       out (emit_text ["SYS_getrandom"] init_state)).
Proof.
  split; [reflexivity|].
  apply (no_syscall_constant_is_defined 0 ∅ init_state "SYS_getrandom").
  reflexivity.
Defined.

(** ** Macro expansion *)

(** Any bound that is at least the size of the table gives the same
    expansion. *)
Lemma expand_enough (n1 n2 : nat) (m : gmap string (list token)) (t : token) :
  size m <= n1 -> size m <= n2 -> expand n1 m t = expand n2 m t.
Proof.
  revert n2 m t. induction n1 as [|n1 IH]; intros n2 m t H1 H2.
  - assert (m = ∅) as -> by (apply map_size_empty_inv; lia).
    destruct n2; cbn; [done|]. by rewrite lookup_empty.
  - destruct n2 as [|n2].
    + assert (m = ∅) as -> by (apply map_size_empty_inv; lia).
      cbn. by rewrite lookup_empty.
    + cbn. destruct (m !! t) as [body|] eqn:Ht; [|done].
      apply flat_map_ext. intros t'.
      pose proof (map_size_delete_Some t m (ltac:(by eexists))) as Hsz.
      apply IH; lia.
Qed.

(** ** The unit with and without the inclusion *)

(** C8, as stated, fails: a unit that tests the guard after the
    inclusion hands [int stub_seen;] to the compiler proper, and the
    same unit without its [#include] line hands it nothing. *)
Lemma guard_probe_tells_the_units_apart :
  parse probing_unit = cons (Include header_name) <$> parse probing_unit_without /\
  out <$> pp_text 1 stub_path probing_unit init_state = Ok ["int"; "stub_seen"; ";"] /\
  out <$> pp_text 1 stub_path probing_unit_without init_state = Ok [] /\
  out <$> pp_text 1 stub_path probing_unit init_state ≠
  out <$> pp_text 1 stub_path probing_unit_without init_state.
Proof. repeat split; try (vm_compute; reflexivity). vm_compute. discriminate. Qed.

(** The line that does what an [#include] of the header does, seen
    from where the directive stands: the definition of the guard where
    the directive is in a group being taken and the guard is undefined,
    an empty line otherwise. *)
Lemma include_as_line (d : nat) (inc : gmap string string) (rest : list line)
    (cs : list frame) (st : pp_state) :
  inc !! header_name = Some syscall_h ->
  pp_lines (S d) inc (Include header_name :: rest) cs st =
  pp_lines (S d) inc
    ((if active cs && negb (defined (macros st) _SYS_SYSCALL_H_)
      then Define _SYS_SYSCALL_H_ [] else Text []) :: rest) cs st.
Proof.
  intros Hinc. rewrite !pp_lines_cons. unfold step at 1, exec at 1.
  destruct (active cs) eqn:Hcs; cbn [andb].
  - rewrite include_syscall_h by done. cbn [mbind result_bind fst snd].
    unfold guard_defined, defined.
    destruct (macros st !! _SYS_SYSCALL_H_) as [body|]; cbn [negb].
    + unfold step, exec, emit_text. rewrite Hcs.
      cbn [mbind result_bind fst snd expand_tokens flat_map].
      rewrite app_nil_r. by destruct st.
    + unfold step, exec, define. rewrite Hcs. done.
  - unfold step, exec. rewrite Hcs. done.
Qed.

Lemma include_as_line_in_unit (d : nat) (inc : gmap string string)
    (pre post : list line) (cs : list frame) (st : pp_state) :
  inc !! header_name = Some syscall_h ->
  exists l,
    (l = Define _SYS_SYSCALL_H_ [] \/ l = Text []) /\
    pp_lines (S d) inc (pre ++ Include header_name :: post) cs st =
    pp_lines (S d) inc (pre ++ l :: post) cs st.
Proof.
  intros Hinc. revert cs st. induction pre as [|l0 pre IH]; intros cs st; cbn [app].
  - eexists. split; [|by apply include_as_line].
    destruct (active cs && negb (defined (macros st) _SYS_SYSCALL_H_)); auto.
  - destruct (step (include (S d) inc) l0 cs st) as [[cs' st']|e] eqn:Hstep.
    + destruct (IH cs' st') as (l & Hl & Heq). exists l. split; [done|].
      rewrite !pp_lines_cons, Hstep. done.
    + exists (Text []). split; [by right|].
      rewrite !pp_lines_cons, Hstep. done.
Qed.

(** C8, amended. Preprocessing a unit with the [#include] of the header
    is preprocessing the same unit with that line replaced by
    [#define _SYS_SYSCALL_H_], or by an empty line (where the guard is
    already defined or the directive is in a skipped group): the two end
    alike, in the same error or with the same tokens for the compiler
    proper and the same macros.  So the header adds nothing to a unit
    apart from the guard being defined. *)
Theorem include_amounts_to_defining_the_guard
    (d : nat) (inc : gmap string string) (pre post : list line) (st : pp_state) :
  inc !! header_name = Some syscall_h ->
  (exists l,
     (l = Define _SYS_SYSCALL_H_ [] \/ l = Text []) /\
     pp_lines (S d) inc (pre ++ Include header_name :: post) [] st =
     pp_lines (S d) inc (pre ++ l :: post) [] st) /\
  (forall cs st0,
     pp_lines (S d) inc (Include header_name :: post) cs st0 =
     pp_lines (S d) inc
       ((if active cs && negb (defined (macros st0) _SYS_SYSCALL_H_)
         then Define _SYS_SYSCALL_H_ [] else Text []) :: post) cs st0).
Proof.
  intros Hinc. split.
  - by apply include_as_line_in_unit.
  - intros cs st0. by apply include_as_line.
Qed.

Lemma include_amounts_to_defining_the_guard_witness :
  stub_path !! header_name = Some syscall_h /\
  (exists l,
     (l = Define _SYS_SYSCALL_H_ [] \/ l = Text []) /\
     pp_lines 1 stub_path
       ([Ifdef _SYS_SYSCALL_H_; Text ["early"]; Endif] ++ Include header_name ::
        [Ifdef _SYS_SYSCALL_H_; Text ["late"]; Endif]) [] init_state =
     pp_lines 1 stub_path
       ([Ifdef _SYS_SYSCALL_H_; Text ["early"]; Endif] ++ l ::
        [Ifdef _SYS_SYSCALL_H_; Text ["late"]; Endif]) [] init_state) /\
  (forall cs st0,
     pp_lines 1 stub_path
       (Include header_name :: [Ifdef _SYS_SYSCALL_H_; Text ["late"]; Endif]) cs st0 =
     pp_lines 1 stub_path
       ((if active cs && negb (defined (macros st0) _SYS_SYSCALL_H_)
         then Define _SYS_SYSCALL_H_ [] else Text []) ::
        [Ifdef _SYS_SYSCALL_H_; Text ["late"]; Endif]) cs st0).
Proof.
  split; [reflexivity|].
  exact (include_amounts_to_defining_the_guard 0 stub_path
           [Ifdef _SYS_SYSCALL_H_; Text ["early"]; Endif]
           [Ifdef _SYS_SYSCALL_H_; Text ["late"]; Endif] init_state eq_refl).
Defined.

(** ** Diagnostics about the header *)

Lemma step_finds (incl : string -> pp_state -> result pp_state) (h0 : string)
    (l : line) (cs : list frame) (st : pp_state) :
  (forall h s, incl h s ≠ Err (FileNotFound h0)) ->
  step incl l cs st ≠ Err (FileNotFound h0).
Proof.
  intros Hincl.
  assert (Hrun : (if active cs then st' ← exec incl l st; Ok (cs, st') else Ok (cs, st))
                 ≠ Err (FileNotFound h0)).
  { destruct (active cs); [|done].
    destruct l as [ts|x body|x|x|x| | | | |h|d|e]; cbn; try done.
    - specialize (Hincl h st). destruct (incl h st) as [s|e]; cbn; [done|congruence].
    - by destruct (d =? "error"). }
  destruct l as [ts|x body|x|x|x| | | | |h|d|e]; try exact Hrun; cbn; try done.
  - by destruct (active cs).
  - destruct cs as [|f cs']; [done|]. destruct (seen_else f); [done|]. by destruct (grp f).
  - destruct cs as [|f cs']; [done|]. by destruct (seen_else f).
  - by destruct cs.
Qed.

Lemma fmap_Err {A B : Type} (f : A -> B) (r : result A) (e : pp_error) :
  f <$> r = Err e -> r = Err e.
Proof. destruct r; cbn; [discriminate|]. by intros [= ->]. Qed.

Lemma scan_error_step (c : ascii) (s : string) :
  (forall m acc e, scan m acc s = Err e -> lexical e) ->
  (forall c' s', s = String c' s' -> forall m acc e, scan m acc s' = Err e -> lexical e) ->
  forall m acc e, scan m acc (String c s) = Err e -> lexical e.
Proof.
  intros Hs Hs' m acc e. cbn [scan].
  destruct m;
    repeat match goal with
      | |- context [if ?b then _ else _] => destruct b
      | |- context [match ?t with EmptyString => _ | String _ _ => _ end] =>
          destruct t eqn:?
      end;
    intros He;
    try apply fmap_Err in He;
    try (injection He as <-; (by left) || (by right));
    try (by eapply Hs);
    try (by eapply Hs').
Qed.

Lemma scan_error (s : string) (m : mode) (acc : list ascii) (e : pp_error) :
  scan m acc s = Err e -> lexical e.
Proof.
  revert m acc e.
  assert (H : (forall m acc e, scan m acc s = Err e -> lexical e) /\
              (forall c m acc e, scan m acc (String c s) = Err e -> lexical e));
    [|by destruct H].
  induction s as [|c' s [IH1 IH2]].
  - assert (H0 : forall m acc e, scan m acc EmptyString = Err e -> lexical e).
    { intros m acc e. destruct m; cbn; intros [= <-]; (by left) || (by right). }
    split; [done|]. intros c. by apply scan_error_step.
  - split; [by apply IH2|]. intros c. apply scan_error_step; [by apply IH2|].
    intros c'' s' [= -> ->]. done.
Qed.

Lemma parse_error (text : string) (e : pp_error) :
  parse text = Err e -> lexical e.
Proof.
  unfold parse, scan_text. intros He. do 2 apply fmap_Err in He.
  by apply scan_error in He.
Qed.

(** A header that is on the include path is never reported missing. *)
Lemma pp_lines_finds (inc : gmap string string) (h0 : string) (depth : nat)
    (ls : list line) (cs : list frame) (st : pp_state) :
  is_Some (inc !! h0) ->
  pp_lines depth inc ls cs st ≠ Err (FileNotFound h0).
Proof.
  intros [text0 Hh0]. revert ls cs st.
  induction depth as [|d IHd]; intros ls; induction ls as [|l ls IH]; intros cs st.
  - destruct cs; [by rewrite pp_lines_nil|by rewrite pp_lines_open].
  - rewrite pp_lines_cons.
    pose proof (step_finds (include 0 inc) h0 l cs st) as Hstep.
    destruct (step (include 0 inc) l cs st) as [[cs' st']|e]; cbn.
    + apply IH.
    + intros [= ->]. apply Hstep; [|done]. by intros h s.
  - destruct cs; [by rewrite pp_lines_nil|by rewrite pp_lines_open].
  - rewrite pp_lines_cons.
    pose proof (step_finds (include (S d) inc) h0 l cs st) as Hstep.
    destruct (step (include (S d) inc) l cs st) as [[cs' st']|e]; cbn.
    + apply IH.
    + intros [= ->]. apply Hstep; [|done]. intros h s. cbn [include].
      destruct (inc !! h) as [text|] eqn:Hh; [|congruence].
      unfold pp_text. destruct (parse text) as [lsh|e'] eqn:Hp; cbn.
      * apply IHd.
      * intros [= ->]. apply parse_error in Hp. by destruct Hp.
Qed.

(** C4. With the header on the include path, and for a unit whose tokens
    for the compiler proper name nothing the real header would have
    provided, a compilation reports nothing about this header: the
    [#include] of its name succeeds wherever it stands and adds no
    token, the header is never reported missing, and no identifier the
    real header provides is reported undeclared.  Of the compiler proper
    it is assumed that it finds undeclared only identifiers that occur
    in its input. *)
Theorem no_diagnostic_about_the_header
    (undeclared : list token -> list string) (provided : string -> bool)
    (d : nat) (inc : gmap string string) (unit : list line) (st : pp_state) :
  inc !! header_name = Some syscall_h ->
  (forall ts x, x ∈ undeclared ts -> x ∈ ts) ->
  (forall st', pp_lines (S d) inc unit [] st = Ok st' ->
     forall x, x ∈ out st' -> provided x = false) ->
  (forall st0, exists st1,
     pp_lines (S d) inc [Include header_name] [] st0 = Ok st1 /\ out st1 = out st0) /\
  forall diag, diag ∈ compile undeclared (S d) inc unit st ->
    about_header provided diag = false.
Proof.
  intros Hinc Hcc Hunit. split.
  - intros st0. exists (guard_defined st0).
    split; [by apply (pp_includes d inc 0)|apply guard_defined_out].
  - intros diag. unfold compile.
    pose proof (pp_lines_finds inc header_name (S d) unit [] st
                  (ltac:(by eexists))) as Hfound.
    destruct (pp_lines (S d) inc unit [] st) as [st'|e].
    + intros (x & -> & Hx)%list_elem_of_fmap. cbn.
      eapply Hunit; [done|]. by apply Hcc in Hx.
    + assert (Hdiag : forall h, e = FileNotFound h -> h ≠ header_name)
        by (intros h -> ->; done).
      destruct e; intros ->%list_elem_of_singleton; cbn; try done.
      apply String.eqb_neq. by apply Hdiag.
Qed.

Lemma no_diagnostic_about_the_header_witness :
  stub_path !! header_name = Some syscall_h /\
  (forall ts x, x ∈ List.filter is_identifier ts -> x ∈ ts) /\
  (forall st',
     pp_lines 1 stub_path [Include header_name; Text ["int"; "x"; ";"]] [] init_state
       = Ok st' ->
     forall x, x ∈ out st' -> syscall_constant x = false) /\
  (forall st0, exists st1,
     pp_lines 1 stub_path [Include header_name] [] st0 = Ok st1 /\ out st1 = out st0) /\
  forall diag,
    diag ∈ compile (List.filter is_identifier) 1 stub_path
             [Include header_name; Text ["int"; "x"; ";"]] init_state ->
    about_header syscall_constant diag = false.
Proof.
  assert (H1 : stub_path !! header_name = Some syscall_h) by reflexivity.
  assert (H2 : forall ts x, x ∈ List.filter is_identifier ts -> x ∈ ts).
  { intros ts x Hx%list_elem_of_In. apply list_elem_of_In.
    by apply filter_In in Hx as [Hx _]. }
  assert (H3 : forall st',
             pp_lines 1 stub_path [Include header_name; Text ["int"; "x"; ";"]] []
               init_state = Ok st' ->
             forall x, x ∈ out st' -> syscall_constant x = false).
  { intros st' Hrun. vm_compute in Hrun. injection Hrun as <-. cbn [out].
    intros x Hx. repeat (apply elem_of_cons in Hx as [->|Hx]; [reflexivity|]).
    by apply elem_of_nil in Hx. }
  split; [exact H1|]. split; [exact H2|]. split; [exact H3|].
  exact (no_diagnostic_about_the_header (List.filter is_identifier) syscall_constant
           0 stub_path [Include header_name; Text ["int"; "x"; ";"]] init_state
           H1 H2 H3).
Defined.

(** ** More on what lines 7 to 9 do *)

Lemma parse_syscall_h_terminated :
  parse (syscall_h +:+ nl) =
    Ok [Text []; Ifndef _SYS_SYSCALL_H_; Define _SYS_SYSCALL_H_ []; Endif; Text []].
Proof. vm_compute. reflexivity. Qed.

Lemma expand_tokens_undefined (m : gmap string (list token)) (x : string) :
  m !! x = None -> expand_tokens m [x] = [x].
Proof.
  intros Hx. unfold expand_tokens, expand_token. cbn [flat_map].
  by rewrite expand_undefined.
Qed.

(** A macro with an empty replacement list leaves nothing of its name. *)
Lemma expand_tokens_empty_macro (m : gmap string (list token)) (x : string) :
  m !! x = Some [] -> expand_tokens m [x] = [].
Proof.
  intros Hx. unfold expand_tokens, expand_token. cbn [flat_map].
  destruct (size m) as [|n] eqn:Hsz.
  - apply map_size_empty_inv in Hsz. subst m. by rewrite lookup_empty in Hx.
  - cbn. by rewrite Hx.
Qed.

(** X1. The [#include] of the header may stand anywhere in a file, also
    inside open conditional groups: it leaves the stack of groups as it
    is, and the rest of the file runs from the state with the guard
    defined when the directive is in a group that is being taken, from
    the unchanged state when it is in a skipped one. *)
Theorem include_composes_with_the_rest
    (d : nat) (inc : gmap string string) (rest : list line) (cs : list frame)
    (st : pp_state) :
  inc !! header_name = Some syscall_h ->
  pp_lines (S d) inc (Include header_name :: rest) cs st =
  pp_lines (S d) inc rest cs (if active cs then guard_defined st else st).
Proof.
  intros Hinc. rewrite pp_lines_cons. unfold step, exec.
  destruct (active cs); [|done].
  by rewrite include_syscall_h.
Qed.

Lemma include_composes_with_the_rest_witness :
  stub_path !! header_name = Some syscall_h /\
  pp_lines 1 stub_path [Include header_name; Else; Text ["x"]; Endif]
    [{| grp := Waiting; seen_else := false |}] init_state =
  pp_lines 1 stub_path [Else; Text ["x"]; Endif]
    [{| grp := Waiting; seen_else := false |}]
    (if active [{| grp := Waiting; seen_else := false |}]
     then guard_defined init_state else init_state).
Proof.
  split; [reflexivity|].
  apply (include_composes_with_the_rest 0 stub_path [Else; Text ["x"]; Endif]
           [{| grp := Waiting; seen_else := false |}] init_state).
  reflexivity.
Defined.

(** X2. The guard protects only while it stays defined: after
    [#undef _SYS_SYSCALL_H_] a second inclusion runs line 8 again, and
    the guard ends up defined with an empty replacement list whatever it
    was at the start. *)
Theorem reinclusion_after_undef_defines_the_guard_afresh
    (d : nat) (inc : gmap string string) (st : pp_state) :
  inc !! header_name = Some syscall_h ->
  pp_lines (S d) inc
    [Include header_name; Undef _SYS_SYSCALL_H_; Include header_name] [] st =
  Ok {| macros := <[_SYS_SYSCALL_H_ := []]> (macros st); out := out st |}.
Proof.
  intros Hinc. rewrite include_composes_with_the_rest by done. cbn [active].
  run_line. rewrite include_composes_with_the_rest by done. cbn [active].
  rewrite pp_lines_nil. f_equal.
  unfold guard_defined at 1. cbn [macros out].
  rewrite lookup_delete_eq, guard_defined_out. f_equal.
  rewrite insert_delete_eq.
  unfold guard_defined. destruct (macros st !! _SYS_SYSCALL_H_); [done|].
  cbn [macros]. apply insert_insert_eq.
Qed.

Lemma reinclusion_after_undef_defines_the_guard_afresh_witness :
  stub_path !! header_name = Some syscall_h /\
  pp_lines 1 stub_path
    [Include header_name; Undef _SYS_SYSCALL_H_; Include header_name] []
    {| macros := {[_SYS_SYSCALL_H_ := ["1"]]}; out := [] |} =
  Ok {| macros := <[_SYS_SYSCALL_H_ := []]> {[_SYS_SYSCALL_H_ := ["1"]]}; out := [] |}.
Proof.
  split; [reflexivity|].
  exact (reinclusion_after_undef_defines_the_guard_afresh 0 stub_path
           {| macros := {[_SYS_SYSCALL_H_ := ["1"]]}; out := [] |} eq_refl).
Defined.

(** X3. Whether the last line of the file, [#endif], is terminated by a
    line feed or not makes no difference to what the header does. *)
Theorem final_line_feed_is_immaterial
    (depth : nat) (inc : gmap string string) (st : pp_state) :
  pp_text depth inc (syscall_h +:+ nl) st = pp_text depth inc syscall_h st.
Proof.
  rewrite pp_syscall_h. unfold pp_text.
  rewrite parse_syscall_h_terminated. cbn [mbind result_bind].
  destruct st as [m o]. unfold guard_defined. cbn [macros out].
  run_line. cbn [expand_tokens flat_map]. rewrite app_nil_r.
  run_line.
  destruct (m !! _SYS_SYSCALL_H_) as [body|] eqn:Hg; cbn [negb mbind result_bind fst snd].
  - do 3 run_line. cbn [expand_tokens flat_map]. rewrite app_nil_r.
    apply pp_lines_nil.
  - do 3 run_line. cbn [expand_tokens flat_map]. rewrite app_nil_r.
    apply pp_lines_nil.
Qed.

(** X4. Once the header has defined the guard, the identifier
    [_SYS_SYSCALL_H_] in the text of the unit is replaced by nothing: a
    line that consists of it gives the compiler proper no token, where
    without the header it would have given the identifier. *)
Theorem guard_expands_to_nothing
    (d : nat) (inc : gmap string string) (st : pp_state) :
  inc !! header_name = Some syscall_h ->
  macros st !! _SYS_SYSCALL_H_ = None ->
  out <$> pp_lines (S d) inc [Include header_name; Text [_SYS_SYSCALL_H_]] [] st
    = Ok (out st) /\
  out <$> pp_lines (S d) inc [Text [_SYS_SYSCALL_H_]] [] st
    = Ok (out st ++ [_SYS_SYSCALL_H_]).
Proof.
  intros Hinc Hg. split.
  - rewrite include_composes_with_the_rest by done. cbn [active].
    run_line. rewrite pp_lines_nil. cbn [fmap result_fmap out].
    rewrite expand_tokens_empty_macro.
    + by rewrite app_nil_r, guard_defined_out.
    + rewrite guard_defined_fresh by done. cbn. apply lookup_insert_eq.
  - run_line. rewrite pp_lines_nil. cbn [fmap result_fmap out].
    by rewrite expand_tokens_undefined.
Qed.

Lemma guard_expands_to_nothing_witness :
  stub_path !! header_name = Some syscall_h /\
  macros init_state !! _SYS_SYSCALL_H_ = None /\
  out <$> pp_lines 1 stub_path [Include header_name; Text [_SYS_SYSCALL_H_]] []
            init_state = Ok (out init_state) /\
  out <$> pp_lines 1 stub_path [Text [_SYS_SYSCALL_H_]] [] init_state
    = Ok (out init_state ++ [_SYS_SYSCALL_H_]).
Proof.
  split; [reflexivity|]. split; [reflexivity|].
  apply (guard_expands_to_nothing 0 stub_path init_state); reflexivity.
Defined.

(** X6. The header is self-contained: it has no [#include] of its own,
    so what it does to a state depends neither on the include path nor
    on the nesting depth left. *)
Theorem header_is_self_contained
    (d1 d2 : nat) (inc1 inc2 : gmap string string) (st : pp_state) :
  pp_text d1 inc1 syscall_h st = pp_text d2 inc2 syscall_h st.
Proof. by rewrite !pp_syscall_h. Qed.

(** X7. A definition of [_SYS_SYSCALL_H_] that the unit makes itself
    prevails on either side of the inclusion: after the inclusion it
    replaces the empty definition the header made, before the inclusion
    it is kept and the header then does nothing; both orders leave the
    same macros and tokens. *)
Theorem own_definition_of_guard_prevails
    (d : nat) (inc : gmap string string) (body : list token) (rest : list line)
    (st : pp_state) :
  inc !! header_name = Some syscall_h ->
  pp_lines (S d) inc (Include header_name :: Define _SYS_SYSCALL_H_ body :: rest) [] st
    = pp_lines (S d) inc rest []
        {| macros := <[_SYS_SYSCALL_H_ := body]> (macros st); out := out st |} /\
  pp_lines (S d) inc (Define _SYS_SYSCALL_H_ body :: Include header_name :: rest) [] st
    = pp_lines (S d) inc rest []
        {| macros := <[_SYS_SYSCALL_H_ := body]> (macros st); out := out st |}.
Proof.
  intros Hinc. split.
  - rewrite include_composes_with_the_rest by done. cbn [active].
    run_line. rewrite guard_defined_out. do 2 f_equal.
    unfold guard_defined. destruct (macros st !! _SYS_SYSCALL_H_); [done|].
    cbn [macros]. apply insert_insert_eq.
  - run_line. rewrite include_composes_with_the_rest by done. cbn [active].
    rewrite guard_defined_noop; [done|].
    cbn [macros]. rewrite lookup_insert_eq. by eexists.
Qed.

Lemma own_definition_of_guard_prevails_witness :
  stub_path !! header_name = Some syscall_h /\
  pp_lines 1 stub_path
    (Include header_name :: Define _SYS_SYSCALL_H_ ["1"] :: [Text ["x"]]) [] init_state
    = pp_lines 1 stub_path [Text ["x"]] []
        {| macros := <[_SYS_SYSCALL_H_ := ["1"]]> (macros init_state);
           out := out init_state |} /\
  pp_lines 1 stub_path
    (Define _SYS_SYSCALL_H_ ["1"] :: Include header_name :: [Text ["x"]]) [] init_state
    = pp_lines 1 stub_path [Text ["x"]] []
        {| macros := <[_SYS_SYSCALL_H_ := ["1"]]> (macros init_state);
           out := out init_state |}.
Proof.
  split; [reflexivity|].
  exact (own_definition_of_guard_prevails 0 stub_path ["1"] [Text ["x"]] init_state
           eq_refl).
Defined.
